(** * picoc.h: the interpreter's shared header

    A shallow embedding of [picoc.h], the one header every module of the
    interpreter includes: its configuration constants, the alignment and
    value-type macros, the token and base-type enumerations, the value,
    table and stack-frame structures and the module-level state.

    C integers are modelled as [Z] with their wrap-around written out,
    pointers as addresses in [Z] with [NULL = 0], enumerations as
    inductive types together with their C discriminant values, structures
    as records and fixed-size C arrays as tuples of that size. *)

From Stdlib Require Import ZArith Lia List String Bool.
Import ListNotations.
Local Open Scope Z_scope.

(** ** The host architecture

    [picoc.h] fixes no integer widths; it only records, in the comment of
    [LARGE_INT_POWER_OF_TEN], that ten to the ninth is the largest power of
    ten fitting an [int] "on this architecture".  The host [int] is taken
    32 bits wide, with 8-bit bytes. *)

Definition CHAR_BIT : Z := 8.
Definition int_bits : Z := 32.

(** [sizeof(int)], in bytes. *)
Definition sizeof_int : Z := int_bits / CHAR_BIT.

Definition INT_MAX : Z := 2 ^ (int_bits - 1) - 1.
Definition UINT_MAX : Z := 2 ^ int_bits - 1.

(** Conversion of a mathematical integer to an unsigned type of [w] bits. *)
Definition wrap (w x : Z) : Z := x mod 2 ^ w.

(** ** Configurable options (picoc.h, lines 7-14) *)

Definition HEAP_SIZE : Z := 2048.
Definition GLOBAL_TABLE_SIZE : Z := 397.
Definition FUNCTION_STORE_MAX : Z := 200.
Definition STACK_MAX : Z := 10.
Definition PARAMETER_MAX : Z := 10.
Definition LOCAL_TABLE_SIZE : Z := 11.
Definition LARGE_INT_POWER_OF_TEN : Z := 1000000000.

(** [ARCH_ALIGN_WORDSIZE] is [sizeof(int)], a value of type [size_t]; it
    is kept as a parameter [wordsize] of the macros that use it, and this
    is its value on the host fixed above. *)
Definition ARCH_ALIGN_WORDSIZE : Z := sizeof_int.

(** ** Handy definitions (picoc.h, lines 17-38) *)

Definition TRUE : Z := 1.
Definition FALSE : Z := 0.
Definition NULL : Z := 0.

(** [MEM_ALIGN(x)] is
    [(((x) + ARCH_ALIGN_WORDSIZE - 1) & ~(ARCH_ALIGN_WORDSIZE-1))].
    [ARCH_ALIGN_WORDSIZE] has type [size_t], so [x] and the literal [1]
    are converted to [size_t] and every operation is carried out on
    unsigned integers of [size_t_bits] bits: the addition, the two
    subtractions and the complement each wrap modulo [2 ^ size_t_bits]. *)
Definition MEM_ALIGN (size_t_bits wordsize x : Z) : Z :=
  let u := wrap size_t_bits in
  Z.land (u (u (u x + u wordsize) - 1))
         (u (Z.lnot (u (u wordsize - 1)))).

(** ** Lexical tokens (picoc.h, lines 41-100) *)

Inductive LexToken : Set :=
  | TokenNone
  | TokenEOF
  | TokenIdentifier
  | TokenIntegerConstant
  | TokenFPConstant
  | TokenStringConstant
  | TokenCharacterConstant
  | TokenType
  | TokenOpenBracket
  | TokenCloseBracket
  | TokenAssign
  | TokenPlus
  | TokenMinus
  | TokenAsterisk
  | TokenSlash
  | TokenEquality
  | TokenLessThan
  | TokenGreaterThan
  | TokenLessEqual
  | TokenGreaterEqual
  | TokenSemicolon
  | TokenArrow
  | TokenAmpersand
  | TokenLeftBrace
  | TokenRightBrace
  | TokenLeftAngleBracket
  | TokenRightAngleBracket
  | TokenLogicalAnd
  | TokenLogicalOr
  | TokenArithmeticOr
  | TokenArithmeticExor
  | TokenUnaryExor
  | TokenUnaryNot
  | TokenComma
  | TokenDot
  | TokenAddAssign
  | TokenSubtractAssign
  | TokenIncrement
  | TokenDecrement
  | TokenIntType
  | TokenCharType
  | TokenFloatType
  | TokenDoubleType
  | TokenVoidType
  | TokenDo
  | TokenElse
  | TokenFor
  | TokenIf
  | TokenWhile
  | TokenBreak
  | TokenSwitch
  | TokenCase
  | TokenDefault
  | TokenReturn
  | TokenHashDefine
  | TokenHashInclude
  | TokenEndOfLine.

(** The enumerators in the order of their declaration. *)
Definition LexToken_enumerators : list LexToken :=
  [ TokenNone; TokenEOF; TokenIdentifier; TokenIntegerConstant;
    TokenFPConstant; TokenStringConstant; TokenCharacterConstant;
    TokenType; TokenOpenBracket; TokenCloseBracket; TokenAssign;
    TokenPlus; TokenMinus; TokenAsterisk; TokenSlash; TokenEquality;
    TokenLessThan; TokenGreaterThan; TokenLessEqual; TokenGreaterEqual;
    TokenSemicolon; TokenArrow; TokenAmpersand; TokenLeftBrace;
    TokenRightBrace; TokenLeftAngleBracket; TokenRightAngleBracket;
    TokenLogicalAnd; TokenLogicalOr; TokenArithmeticOr;
    TokenArithmeticExor; TokenUnaryExor; TokenUnaryNot; TokenComma;
    TokenDot; TokenAddAssign; TokenSubtractAssign; TokenIncrement;
    TokenDecrement; TokenIntType; TokenCharType; TokenFloatType;
    TokenDoubleType; TokenVoidType; TokenDo; TokenElse; TokenFor;
    TokenIf; TokenWhile; TokenBreak; TokenSwitch; TokenCase;
    TokenDefault; TokenReturn; TokenHashDefine; TokenHashInclude;
    TokenEndOfLine ].

(** The discriminant of an enumerator: no enumerator has an initialiser,
    so the first is 0 and each next one is one more. *)
Definition LexToken_value (t : LexToken) : Z :=
  match t with
  | TokenNone => 0
  | TokenEOF => 1
  | TokenIdentifier => 2
  | TokenIntegerConstant => 3
  | TokenFPConstant => 4
  | TokenStringConstant => 5
  | TokenCharacterConstant => 6
  | TokenType => 7
  | TokenOpenBracket => 8
  | TokenCloseBracket => 9
  | TokenAssign => 10
  | TokenPlus => 11
  | TokenMinus => 12
  | TokenAsterisk => 13
  | TokenSlash => 14
  | TokenEquality => 15
  | TokenLessThan => 16
  | TokenGreaterThan => 17
  | TokenLessEqual => 18
  | TokenGreaterEqual => 19
  | TokenSemicolon => 20
  | TokenArrow => 21
  | TokenAmpersand => 22
  | TokenLeftBrace => 23
  | TokenRightBrace => 24
  | TokenLeftAngleBracket => 25
  | TokenRightAngleBracket => 26
  | TokenLogicalAnd => 27
  | TokenLogicalOr => 28
  | TokenArithmeticOr => 29
  | TokenArithmeticExor => 30
  | TokenUnaryExor => 31
  | TokenUnaryNot => 32
  | TokenComma => 33
  | TokenDot => 34
  | TokenAddAssign => 35
  | TokenSubtractAssign => 36
  | TokenIncrement => 37
  | TokenDecrement => 38
  | TokenIntType => 39
  | TokenCharType => 40
  | TokenFloatType => 41
  | TokenDoubleType => 42
  | TokenVoidType => 43
  | TokenDo => 44
  | TokenElse => 45
  | TokenFor => 46
  | TokenIf => 47
  | TokenWhile => 48
  | TokenBreak => 49
  | TokenSwitch => 50
  | TokenCase => 51
  | TokenDefault => 52
  | TokenReturn => 53
  | TokenHashDefine => 54
  | TokenHashInclude => 55
  | TokenEndOfLine => 56
  end.

(** What a token stands for: a class of lexemes that carries a payload
    or marks a position in the input, or one fixed spelling. *)
Inductive TokenClass : Set :=
  | ClassNone
  | ClassEOF
  | ClassIdentifier
  | ClassIntegerConstant
  | ClassFPConstant
  | ClassStringConstant
  | ClassCharacterConstant
  | ClassTypeKeyword
  | ClassEndOfLine.

Inductive Lexeme : Set :=
  | Class (c : TokenClass)
  | Spelled (s : string).

(** The lexeme each enumerator is named after.  The header declares the
    names only (the scanner that produces them is lex.c); every name is
    read as the C lexeme it describes.  [TokenOpenBracket] and
    [TokenCloseBracket] are the parentheses, next to the braces
    [TokenLeftBrace] and [TokenRightBrace]; [TokenLessThan] and
    [TokenGreaterThan] already name [<] and [>], so the remaining bracket
    pair [TokenLeftAngleBracket] / [TokenRightAngleBracket] is read as the
    index brackets.  [TokenUnaryExor] is the unary complement and
    [TokenUnaryNot] the logical negation. *)
Definition LexToken_lexeme (t : LexToken) : Lexeme :=
  match t with
  | TokenNone => Class ClassNone
  | TokenEOF => Class ClassEOF
  | TokenIdentifier => Class ClassIdentifier
  | TokenIntegerConstant => Class ClassIntegerConstant
  | TokenFPConstant => Class ClassFPConstant
  | TokenStringConstant => Class ClassStringConstant
  | TokenCharacterConstant => Class ClassCharacterConstant
  | TokenType => Class ClassTypeKeyword
  | TokenOpenBracket => Spelled "("
  | TokenCloseBracket => Spelled ")"
  | TokenAssign => Spelled "="
  | TokenPlus => Spelled "+"
  | TokenMinus => Spelled "-"
  | TokenAsterisk => Spelled "*"
  | TokenSlash => Spelled "/"
  | TokenEquality => Spelled "=="
  | TokenLessThan => Spelled "<"
  | TokenGreaterThan => Spelled ">"
  | TokenLessEqual => Spelled "<="
  | TokenGreaterEqual => Spelled ">="
  | TokenSemicolon => Spelled ";"
  | TokenArrow => Spelled "->"
  | TokenAmpersand => Spelled "&"
  | TokenLeftBrace => Spelled "{"
  | TokenRightBrace => Spelled "}"
  | TokenLeftAngleBracket => Spelled "["
  | TokenRightAngleBracket => Spelled "]"
  | TokenLogicalAnd => Spelled "&&"
  | TokenLogicalOr => Spelled "||"
  | TokenArithmeticOr => Spelled "|"
  | TokenArithmeticExor => Spelled "^"
  | TokenUnaryExor => Spelled "~"
  | TokenUnaryNot => Spelled "!"
  | TokenComma => Spelled ","
  | TokenDot => Spelled "."
  | TokenAddAssign => Spelled "+="
  | TokenSubtractAssign => Spelled "-="
  | TokenIncrement => Spelled "++"
  | TokenDecrement => Spelled "--"
  | TokenIntType => Spelled "int"
  | TokenCharType => Spelled "char"
  | TokenFloatType => Spelled "float"
  | TokenDoubleType => Spelled "double"
  | TokenVoidType => Spelled "void"
  | TokenDo => Spelled "do"
  | TokenElse => Spelled "else"
  | TokenFor => Spelled "for"
  | TokenIf => Spelled "if"
  | TokenWhile => Spelled "while"
  | TokenBreak => Spelled "break"
  | TokenSwitch => Spelled "switch"
  | TokenCase => Spelled "case"
  | TokenDefault => Spelled "default"
  | TokenReturn => Spelled "return"
  | TokenHashDefine => Spelled "#define"
  | TokenHashInclude => Spelled "#include"
  | TokenEndOfLine => Class ClassEndOfLine
  end.

Definition TokenClass_eqb (a b : TokenClass) : bool :=
  match a, b with
  | ClassNone, ClassNone
  | ClassEOF, ClassEOF
  | ClassIdentifier, ClassIdentifier
  | ClassIntegerConstant, ClassIntegerConstant
  | ClassFPConstant, ClassFPConstant
  | ClassStringConstant, ClassStringConstant
  | ClassCharacterConstant, ClassCharacterConstant
  | ClassTypeKeyword, ClassTypeKeyword
  | ClassEndOfLine, ClassEndOfLine => true
  | _, _ => false
  end.

Definition Lexeme_eqb (a b : Lexeme) : bool :=
  match a, b with
  | Class c, Class d => TokenClass_eqb c d
  | Spelled s, Spelled r => String.eqb s r
  | _, _ => false
  end.

(** The enumerator that stands for a lexeme, searched in declaration
    order; [None] when the enumeration has none. *)
Definition LexToken_of_lexeme (l : Lexeme) : option LexToken :=
  find (fun t => Lexeme_eqb (LexToken_lexeme t) l) LexToken_enumerators.

(** *** The token set of the specification

    These lists follow the words of the specification (section 3,
    "Token", and the operator table of section 4.6), to be compared with
    the enumeration above. *)

Definition spec_classes : list Lexeme :=
  List.map Class
    [ ClassEOF; ClassIdentifier; ClassIntegerConstant; ClassFPConstant;
      ClassStringConstant; ClassCharacterConstant; ClassTypeKeyword;
      ClassEndOfLine ].

Definition spec_punctuators : list string :=
  [ "("; ")"; "{"; "}"; "["; "]"; ","; ";"; "."; "->" ]%string.

(** The binary arithmetic and bitwise operators of the operator table. *)
Definition spec_arithmetic_operators : list string :=
  [ "+"; "-"; "*"; "/" ]%string.

Definition spec_bitwise_operators : list string :=
  [ "|"; "^"; "&" ]%string.

(** The compound-assign form of a binary operator [op] is [op=]. *)
Definition compound_assign (op : string) : string := (op ++ "=")%string.

Definition spec_compound_assigns : list string :=
  List.map compound_assign
    (spec_arithmetic_operators ++ spec_bitwise_operators).

Definition spec_unary_operators : list string :=
  [ "!"; "~" ]%string.

Definition spec_increment_decrement : list string :=
  [ "++"; "--" ]%string.

Definition spec_comparison_operators : list string :=
  [ "=="; "!="; "<"; "<="; ">"; ">=" ]%string.

Definition spec_logical_operators : list string :=
  [ "&&"; "||" ]%string.

Definition spec_keywords : list string :=
  [ "do"; "else"; "for"; "if"; "while"; "break"; "switch"; "case";
    "default"; "return" ]%string.

Definition spec_preprocessor_markers : list string :=
  [ "#define"; "#include" ]%string.

Definition spec_token_set : list Lexeme :=
  spec_classes ++
  List.map Spelled
    (spec_punctuators ++ ["="]%string ++
     spec_arithmetic_operators ++ spec_bitwise_operators ++
     spec_compound_assigns ++ spec_unary_operators ++
     spec_increment_decrement ++ spec_comparison_operators ++
     spec_logical_operators ++ spec_keywords ++
     spec_preprocessor_markers).

(** The elements of the specification's token set for which the
    enumeration declares no enumerator. *)
Definition undeclared_lexemes : list Lexeme :=
  List.map Spelled [ "*="; "/="; "|="; "^="; "&="; "!=" ]%string.

(** Whether the enumeration has an enumerator for a lexeme. *)
Definition declared (l : Lexeme) : bool :=
  match LexToken_of_lexeme l with
  | Some _ => true
  | None => false
  end.

(** ** Machine data *)

(** A C pointer is the address it holds; the null pointer is address 0. *)
Definition ptr : Set := Z.

Definition is_null (p : ptr) : bool := p =? NULL.

(** The values of type [unsigned int]: the integers from 0 to
    [UINT_MAX]. *)
Definition uint_in_range (z : Z) : bool := (0 <=? z) && (z <=? UINT_MAX).

Record uint : Set := mk_uint {
  uint_val : Z;
  uint_range : uint_in_range uint_val = true
}.

(** Conversion to [unsigned int] reduces modulo [UINT_MAX + 1]. *)
Definition uint_of_Z (z : Z) : uint.
Proof.
  refine (mk_uint (wrap int_bits z) _).
  unfold uint_in_range, wrap, UINT_MAX.
  assert (0 <= z mod 2 ^ int_bits < 2 ^ int_bits)
    by (apply Z.mod_pos_bound; reflexivity).
  apply andb_true_intro; split; [apply Z.leb_le | apply Z.leb_le]; lia.
Defined.

(** Unsigned arithmetic: the mathematical result, converted back. *)
Definition uint_add (a b : uint) : uint := uint_of_Z (uint_val a + uint_val b).
Definition uint_sub (a b : uint) : uint := uint_of_Z (uint_val a - uint_val b).
Definition uint_mul (a b : uint) : uint := uint_of_Z (uint_val a * uint_val b).

(** A C array [T a[n]]: exactly [n] elements of type [T]. *)
Fixpoint array (A : Type) (n : nat) : Type :=
  match n with
  | O => unit
  | S k => (A * array A k)%type
  end.

Fixpoint array_to_list {A : Type} {n : nat} : array A n -> list A :=
  match n with
  | O => fun _ => []
  | S k => fun a => fst a :: array_to_list (snd a)
  end.

Fixpoint array_fill {A : Type} (n : nat) (x : A) : array A n :=
  match n with
  | O => tt
  | S k => (x, array_fill k x)
  end.

(** [a[i]]; an index outside the array has no element. *)
Fixpoint array_get {A : Type} {n : nat} : array A n -> nat -> option A :=
  match n with
  | O => fun _ _ => None
  | S k => fun a i =>
      match i with
      | O => Some (fst a)
      | S j => array_get (snd a) j
      end
  end.

(** [a[i] = x]; an index outside the array has no slot to write. *)
Fixpoint array_set {A : Type} {n : nat}
  : array A n -> nat -> A -> option (array A n) :=
  match n with
  | O => fun _ _ _ => None
  | S k => fun a i x =>
      match i with
      | O => Some (x, snd a)
      | S j =>
          match array_set (snd a) j x with
          | Some r => Some (fst a, r)
          | None => None
          end
      end
  end.

(** ** Strings and function definitions (picoc.h, lines 102-115) *)

Module Str.
Record t : Set := Build { Len : Z; Str : ptr }.
End Str.

Module FuncDef.
Record t : Set := Build { Source : Str.t; FileName : Str.t; StartLine : Z }.
End FuncDef.

(** ** Values (picoc.h, lines 117-169) *)

Inductive BaseType : Set :=
  | TypeVoid      (* no type *)
  | TypeInt       (* integer *)
  | TypeFP        (* floating point *)
  | TypeChar      (* a single character *)
  | TypeString    (* a constant source text string *)
  | TypeFunction  (* a function *)
  | TypeMacro     (* a macro *)
  | TypePointer   (* a pointer *)
  | TypeArray     (* an array of a sub-type *)
  | TypeType.     (* a type (eg. typedef) *)

Definition BaseType_enumerators : list BaseType :=
  [ TypeVoid; TypeInt; TypeFP; TypeChar; TypeString; TypeFunction;
    TypeMacro; TypePointer; TypeArray; TypeType ].

Definition BaseType_value (b : BaseType) : Z :=
  match b with
  | TypeVoid => 0
  | TypeInt => 1
  | TypeFP => 2
  | TypeChar => 3
  | TypeString => 4
  | TypeFunction => 5
  | TypeMacro => 6
  | TypePointer => 7
  | TypeArray => 8
  | TypeType => 9
  end.

(** [a == b] on two enumerators compares their discriminants. *)
Definition BaseType_eqb (a b : BaseType) : bool :=
  BaseType_value a =? BaseType_value b.

(** [struct ValueType]: a base and a pointer to the sub-type descriptor.
    Descriptors are never modified once built, so the pointer is modelled
    by the descriptor it points to, and a null pointer by [None]. *)
Module ValueType.
#[warnings="-register-all"]
Inductive t : Set := Build (Base : BaseType) (SubType : option t).

Definition Base (v : t) : BaseType := let (b, _) := v in b.
Definition SubType (v : t) : option t := let (_, s) := v in s.
End ValueType.

(** [ISVALUETYPE(t)] is
    [(((t)->Base == TypeInt) || ((t)->Base == TypeFP) ||
      ((t)->Base == TypeString))]. *)
Definition ISVALUETYPE (t : ValueType.t) : bool :=
  BaseType_eqb (ValueType.Base t) TypeInt
  || BaseType_eqb (ValueType.Base t) TypeFP
  || BaseType_eqb (ValueType.Base t) TypeString.

Module ArrayValue.
Record t : Set := Build {
  Size : uint;   (* the number of elements in the array *)
  Data : ptr     (* pointer to the array data *)
}.
End ArrayValue.

Module PointerValue.
(** [union s]: one storage cell with two members.  The members overlap in
    storage, so a value of the union is modelled by what each member
    reads as; the program relies on one of the two readings at a time. *)
Record s : Set := Build_s {
  Offset : uint;   (* index into an array *)
  Memory : ptr     (* machine memory pointer for raw memory access *)
}.

Record t : Set := Build {
  Segment : ptr;   (* array or basic value which this points to,
                      NULL for machine memory access *)
  Data : s
}.
End PointerValue.

Module Value.
Record t : Set := Build {
  Typ : ValueType.t;
  Val : ptr;         (* union AnyValue * *)
  MustFree : Z
}.
End Value.

(** ** Hash tables, lexer state and stack frames (picoc.h, lines 171-199) *)

Module TableEntry.
Record t : Set := Build { Key : Str.t; Val : ptr (* struct Value * *) }.
End TableEntry.

Module Table.
Record t : Set := Build { Size : Z; HashTable : ptr }.
End Table.

Module LexState.
Record t : Set := Build { Line : Z; Pos : ptr; End_ : ptr; FileName : ptr }.
End LexState.

Module StackFrame.
Record t : Type := Build {
  ReturnLex : LexState.t;     (* how we got here *)
  LocalTable : Table.t;       (* the local variables and parameters *)
  LocalHashTable : array TableEntry.t (Z.to_nat LOCAL_TABLE_SIZE)
}.
End StackFrame.

(** ** Globals (picoc.h, lines 201-207)

    The objects declared at file scope.  A C program has one object per
    such declaration; the state of the interpreter holds each once.
    ([Parameter] and [End] are reserved words here, so the array is
    [Parameter_] and the lexer's end pointer [End_].) *)
Module Globals.
Record t : Type := Build {
  GlobalTable : Table.t;
  Parameter_ : array Value.t (Z.to_nat PARAMETER_MAX);
  ParameterUsed : Z;
  ReturnValue : Value.t;
  VoidType : ValueType.t;
  FunctionType : ValueType.t
}.
End Globals.

(** ** The descriptors the interpreter builds

    Modelled from the spec: the set of type descriptors that exist at run
    time.  The code that builds descriptors (ParseType and the
    definitions of [VoidType] and [FunctionType]) is outside picoc.h.
    The specification gives a descriptor as (base, subtype) with the
    subtype "non-null only for pointer and array", and describes base and
    payload as "a sum type with one arm per base type": the two arms with
    a subtype are pointer and array. *)
Inductive TypeDescriptor : Set :=
  | DescVoid
  | DescInt
  | DescFP
  | DescChar
  | DescString
  | DescFunction
  | DescMacro
  | DescPointer (pointee : TypeDescriptor)
  | DescArray (element : TypeDescriptor)
  | DescType.

(** The [struct ValueType] that holds a descriptor. *)
Fixpoint ValueType_of (d : TypeDescriptor) : ValueType.t :=
  match d with
  | DescVoid => ValueType.Build TypeVoid None
  | DescInt => ValueType.Build TypeInt None
  | DescFP => ValueType.Build TypeFP None
  | DescChar => ValueType.Build TypeChar None
  | DescString => ValueType.Build TypeString None
  | DescFunction => ValueType.Build TypeFunction None
  | DescMacro => ValueType.Build TypeMacro None
  | DescPointer s => ValueType.Build TypePointer (Some (ValueType_of s))
  | DescArray s => ValueType.Build TypeArray (Some (ValueType_of s))
  | DescType => ValueType.Build TypeType None
  end.

(** ** The reading of a pointer value

    Modelled from the spec: what a pointer value denotes.  The code that
    dereferences pointers is outside picoc.h; the specification (section
    3) and the comments of [struct PointerValue] say that a null
    [Segment] marks a raw machine-memory pointer, held in [Data.Memory],
    and that any other pointer is the index [Data.Offset] into the array
    or scalar value [Segment]. *)
Inductive PointerMeaning : Set :=
  | IndexInto (segment : ptr) (offset : Z)
  | RawMemory (memory : ptr).

Definition PointerValue_meaning (p : PointerValue.t) : PointerMeaning :=
  if is_null (PointerValue.Segment p)
  then RawMemory (PointerValue.Memory (PointerValue.Data p))
  else IndexInto (PointerValue.Segment p)
                 (uint_val (PointerValue.Offset (PointerValue.Data p))).

(** The pointer values that hold a given meaning: the member of the
    union the meaning does not use is left as [other]. *)
Definition PointerValue_index (segment : ptr) (offset : uint) (other : ptr)
  : PointerValue.t :=
  PointerValue.Build segment (PointerValue.Build_s offset other).

Definition PointerValue_raw (memory : ptr) (other : uint) : PointerValue.t :=
  PointerValue.Build NULL (PointerValue.Build_s other memory).

(** * Properties *)

(** ** Tokens *)

Lemma LexToken_enumerators_complete (t : LexToken) :
  In t LexToken_enumerators.
Proof. destruct t; simpl; tauto. Qed.

(** The enumerator with discriminant [v] is the [v]-th of the list. *)
Lemma LexToken_value_nth (t : LexToken) :
  nth_error LexToken_enumerators (Z.to_nat (LexToken_value t)) = Some t.
Proof. destruct t; reflexivity. Qed.

Lemma LexToken_value_inj (t1 t2 : LexToken) :
  LexToken_value t1 = LexToken_value t2 -> t1 = t2.
Proof.
  intros H. pose proof (LexToken_value_nth t1) as H1.
  rewrite H, LexToken_value_nth in H1. congruence.
Qed.

(** The discriminants run from 0, for [TokenNone], to 56, for
    [TokenEndOfLine], in the order of declaration. *)
Lemma LexToken_value_range :
  LexToken_value TokenNone = 0
  /\ LexToken_value TokenEndOfLine = 56
  /\ (forall t : LexToken, 0 <= LexToken_value t <= 56)
  /\ (forall v : Z, 0 <= v <= 56 ->
                    exists t, LexToken_value t = v).
Proof.
  split; [reflexivity |]. split; [reflexivity |]. split.
  - intros t. destruct t; simpl; lia.
  - intros v Hv.
    destruct (nth_error LexToken_enumerators (Z.to_nat v)) as [t |] eqn:E.
    + exists t.
      assert (Hk : exists k : nat, (k < 57)%nat /\ v = Z.of_nat k)
        by (exists (Z.to_nat v); lia).
      destruct Hk as [k [Hk ->]]. rewrite Nat2Z.id in E.
      do 57 (destruct k as [| k];
             [injection E as <-; reflexivity |]).
      lia.
    + apply nth_error_None in E. simpl in E. lia.
Qed.

Lemma TokenClass_eqb_eq (a b : TokenClass) :
  TokenClass_eqb a b = true <-> a = b.
Proof. destruct a, b; simpl; split; intros H; congruence. Qed.

Lemma Lexeme_eqb_eq (a b : Lexeme) : Lexeme_eqb a b = true <-> a = b.
Proof.
  destruct a as [c | s], b as [d | r]; simpl.
  - rewrite TokenClass_eqb_eq. split; congruence.
  - split; discriminate.
  - split; discriminate.
  - rewrite String.eqb_eq. split; congruence.
Qed.

Lemma LexToken_of_lexeme_Some (l : Lexeme) (t : LexToken) :
  LexToken_of_lexeme l = Some t -> LexToken_lexeme t = l.
Proof.
  unfold LexToken_of_lexeme. intros H.
  apply find_some in H. destruct H as [_ H].
  apply Lexeme_eqb_eq. exact H.
Qed.

Lemma LexToken_of_lexeme_None (l : Lexeme) :
  LexToken_of_lexeme l = None -> forall t, LexToken_lexeme t <> l.
Proof.
  unfold LexToken_of_lexeme. intros H t Ht.
  pose proof (find_none _ _ H t (LexToken_enumerators_complete t)) as Hn.
  apply Lexeme_eqb_eq in Ht. simpl in Hn. congruence.
Qed.

(** Every enumerator is found back from its lexeme: no two enumerators
    stand for the same lexeme. *)
Lemma LexToken_of_lexeme_lexeme (t : LexToken) :
  LexToken_of_lexeme (LexToken_lexeme t) = Some t.
Proof. destruct t; reflexivity. Qed.

Lemma LexToken_lexeme_inj (t1 t2 : LexToken) :
  LexToken_lexeme t1 = LexToken_lexeme t2 -> t1 = t2.
Proof.
  intros H. pose proof (LexToken_of_lexeme_lexeme t1) as H1.
  rewrite H, LexToken_of_lexeme_lexeme in H1. congruence.
Qed.

(** The elements of the specification's token set without an enumerator
    are the six of [undeclared_lexemes]. *)
Lemma spec_token_set_split :
  filter (fun l => negb (declared l)) spec_token_set = undeclared_lexemes.
Proof. reflexivity. Qed.

(** The enumeration has no token for the inequality operator, which the
    operator table of the specification lists. *)
Lemma LexToken_no_inequality :
  In (Spelled "!=") spec_token_set
  /\ LexToken_of_lexeme (Spelled "!=") = None
  /\ ~ (forall l, In l spec_token_set ->
                  exists t, LexToken_lexeme t = l).
Proof.
  assert (Hin : In (Spelled "!=") spec_token_set).
  { apply (proj1 (filter_In (fun l => negb (declared l)) _ _)).
    rewrite spec_token_set_split. simpl. tauto. }
  split; [exact Hin |]. split; [reflexivity |].
  intros H. destruct (H _ Hin) as [t Ht].
  revert Ht. apply LexToken_of_lexeme_None. reflexivity.
Qed.

(** C1, as the enumeration has it.  [enum LexToken] has 57 enumerators
    with the distinct discriminants 0 to 56, no two of them for the same
    lexeme.  Every element of the specification's token set has its
    enumerator, except the compound-assign forms of [*], [/], [|], [^]
    and [&] and the inequality operator: the only compound assigns
    declared are [+=] and [-=], and no enumerator stands for [!=]. *)
Theorem LexToken_covers_spec_tokens :
  List.length LexToken_enumerators = 57%nat
  /\ (forall t : LexToken, In t LexToken_enumerators)
  /\ List.map LexToken_value LexToken_enumerators
     = List.map Z.of_nat (seq 0 57)
  /\ (forall t1 t2 : LexToken,
        t1 <> t2 ->
        LexToken_value t1 <> LexToken_value t2
        /\ LexToken_lexeme t1 <> LexToken_lexeme t2)
  /\ (forall l : Lexeme,
        In l spec_token_set -> ~ In l undeclared_lexemes ->
        exists t, LexToken_lexeme t = l)
  /\ (forall l : Lexeme,
        In l undeclared_lexemes ->
        In l spec_token_set /\ forall t, LexToken_lexeme t <> l)
  /\ undeclared_lexemes
     = List.map Spelled ["*="; "/="; "|="; "^="; "&="; "!="]%string.
Proof.
  split; [reflexivity |].
  split; [exact LexToken_enumerators_complete |].
  split; [reflexivity |].
  split.
  { intros t1 t2 Hne. split; intros H; apply Hne.
    - apply LexToken_value_inj; exact H.
    - apply LexToken_lexeme_inj; exact H. }
  split.
  { intros l Hin Hun.
    destruct (LexToken_of_lexeme l) as [t |] eqn:E.
    - exists t. apply LexToken_of_lexeme_Some. exact E.
    - exfalso. apply Hun. rewrite <- spec_token_set_split.
      apply filter_In. split; [exact Hin |].
      unfold declared. rewrite E. reflexivity. }
  split; [| reflexivity].
  intros l Hin. rewrite <- spec_token_set_split in Hin.
  apply filter_In in Hin. destruct Hin as [Hin Hd].
  split; [exact Hin |].
  apply LexToken_of_lexeme_None.
  unfold declared in Hd. destruct (LexToken_of_lexeme l); [discriminate Hd |].
  reflexivity.
Qed.

(** The enumerators behind the fixed spellings, one by one. *)
Example LexToken_named_tokens :
  List.map LexToken_of_lexeme
    (List.map Spelled
       (spec_punctuators ++ ["+="; "-="; "!"; "~"; "|"; "^"; "&"; "++"; "--";
                             "=="; "<"; "<="; ">"; ">="]%string
        ++ spec_keywords ++ spec_preprocessor_markers)
     ++ [Class ClassEndOfLine])
  = List.map Some
      [ TokenOpenBracket; TokenCloseBracket; TokenLeftBrace;
        TokenRightBrace; TokenLeftAngleBracket; TokenRightAngleBracket;
        TokenComma; TokenSemicolon; TokenDot; TokenArrow;
        TokenAddAssign; TokenSubtractAssign; TokenUnaryNot;
        TokenUnaryExor; TokenArithmeticOr; TokenArithmeticExor;
        TokenAmpersand; TokenIncrement; TokenDecrement; TokenEquality;
        TokenLessThan; TokenLessEqual; TokenGreaterThan;
        TokenGreaterEqual; TokenDo; TokenElse; TokenFor; TokenIf;
        TokenWhile; TokenBreak; TokenSwitch; TokenCase; TokenDefault;
        TokenReturn; TokenHashDefine; TokenHashInclude; TokenEndOfLine ].
Proof. reflexivity. Qed.

(** ** Base types and value types *)

Lemma BaseType_enumerators_complete (b : BaseType) :
  In b BaseType_enumerators.
Proof. destruct b; simpl; tauto. Qed.

Lemma BaseType_value_inj (a b : BaseType) :
  BaseType_value a = BaseType_value b -> a = b.
Proof. destruct a, b; simpl; intros H; try reflexivity; discriminate H. Qed.

Lemma BaseType_eqb_eq (a b : BaseType) :
  BaseType_eqb a b = true <-> a = b.
Proof.
  unfold BaseType_eqb. rewrite Z.eqb_eq. split.
  - apply BaseType_value_inj.
  - intros ->. reflexivity.
Qed.

(** C2. [ISVALUETYPE(t)] holds exactly when the base of [t] is
    [TypeInt], [TypeFP] or [TypeString]; for each of the seven other
    bases it does not hold. *)
Theorem ISVALUETYPE_iff (t : ValueType.t) :
  (ISVALUETYPE t = true
   <-> ValueType.Base t = TypeInt \/ ValueType.Base t = TypeFP
       \/ ValueType.Base t = TypeString)
  /\ (In (ValueType.Base t)
        [TypeVoid; TypeChar; TypeFunction; TypeMacro; TypePointer;
         TypeArray; TypeType]
      <-> ISVALUETYPE t = false).
Proof.
  unfold ISVALUETYPE. split.
  - rewrite !orb_true_iff, !BaseType_eqb_eq. tauto.
  - destruct t as [b s]. simpl ValueType.Base.
    destruct b; simpl; split; intros H;
      try reflexivity; try discriminate H; intuition discriminate.
Qed.

Example ISVALUETYPE_pointer_to_int :
  ISVALUETYPE (ValueType_of (DescPointer DescInt)) = false
  /\ ISVALUETYPE (ValueType_of DescInt) = true.
Proof. split; reflexivity. Qed.

(** C5. [enum BaseType] has exactly the ten enumerators void, int, fp,
    char, string, function, macro, pointer, array and type, with the
    discriminants 0 to 9; a descriptor is a base paired with one subtype
    field, and in every descriptor the interpreter builds the subtype is
    non-null only for a pointer or an array base. *)
Theorem BaseType_ten_and_SubType :
  BaseType_enumerators
  = [TypeVoid; TypeInt; TypeFP; TypeChar; TypeString; TypeFunction;
     TypeMacro; TypePointer; TypeArray; TypeType]
  /\ (forall b : BaseType, In b BaseType_enumerators)
  /\ NoDup BaseType_enumerators
  /\ List.length BaseType_enumerators = 10%nat
  /\ List.map BaseType_value BaseType_enumerators
     = [0; 1; 2; 3; 4; 5; 6; 7; 8; 9]
  /\ (forall t : ValueType.t,
        t = ValueType.Build (ValueType.Base t) (ValueType.SubType t))
  /\ (forall d : TypeDescriptor,
        ValueType.SubType (ValueType_of d) <> None ->
        ValueType.Base (ValueType_of d) = TypePointer
        \/ ValueType.Base (ValueType_of d) = TypeArray).
Proof.
  split; [reflexivity |].
  split; [exact BaseType_enumerators_complete |].
  split.
  { unfold BaseType_enumerators.
    repeat (constructor; [simpl; intuition discriminate |]).
    constructor. }
  split; [reflexivity |].
  split; [reflexivity |].
  split.
  - intros [b s]. reflexivity.
  - intros d H. destruct d; simpl in *; try (now elim H); auto.
Qed.

(** In a built descriptor a pointer or an array base always has its
    subtype. *)
Lemma ValueType_of_SubType_iff (d : TypeDescriptor) :
  ValueType.SubType (ValueType_of d) <> None
  <-> ValueType.Base (ValueType_of d) = TypePointer
      \/ ValueType.Base (ValueType_of d) = TypeArray.
Proof.
  destruct d; simpl; split; intros H;
    try (now elim H); try discriminate; auto;
    destruct H; discriminate.
Qed.

(** [struct ValueType] itself does not tie the subtype to the base: the
    restriction is kept by the code that builds descriptors. *)
Example ValueType_unbuilt :
  let t := ValueType.Build TypeInt (Some (ValueType.Build TypeVoid None)) in
  forall d, ValueType_of d <> t.
Proof. intros t d. destruct d; discriminate. Qed.

(** ** Configuration *)

Lemma array_to_list_length {A : Type} (n : nat) (a : array A n) :
  List.length (array_to_list a) = n.
Proof.
  induction n as [| k IH]; simpl; [reflexivity |].
  f_equal. apply IH.
Qed.

Lemma array_get_None {A : Type} (n : nat) (a : array A n) (i : nat) :
  (n <= i)%nat -> array_get a i = None.
Proof.
  revert i. induction n as [| k IH]; intros i Hi; simpl; [reflexivity |].
  destruct i as [| j]; [lia |]. apply IH. lia.
Qed.

Lemma array_set_None {A : Type} (n : nat) (a : array A n) (i : nat) (x : A) :
  (n <= i)%nat -> array_set a i x = None.
Proof.
  revert i. induction n as [| k IH]; intros i Hi; simpl; [reflexivity |].
  destruct i as [| j]; [lia |]. rewrite IH by lia. reflexivity.
Qed.

Lemma array_set_Some {A : Type} (n : nat) (a : array A n) (i : nat) (x : A) :
  (i < n)%nat -> exists b, array_set a i x = Some b /\ array_get b i = Some x.
Proof.
  revert i. induction n as [| k IH]; intros i Hi; simpl; [lia |].
  destruct i as [| j].
  - eexists. split; reflexivity.
  - destruct (IH (snd a) j) as [b [Hb Hg]]; [lia |].
    rewrite Hb. eexists. split; [reflexivity | exact Hg].
Qed.

Lemma array_get_Some_iff {A : Type} (n : nat) (a : array A n) (i : nat) :
  (exists e, array_get a i = Some e) <-> (i < n)%nat.
Proof.
  split.
  - intros [e He]. destruct (Nat.lt_ge_cases i n) as [| Hge]; [assumption |].
    rewrite array_get_None in He by exact Hge. discriminate He.
  - revert i. induction n as [| k IH]; intros i Hi; simpl; [lia |].
    destruct i as [| j]; [eexists; reflexivity |].
    apply IH. lia.
Qed.

(** C7. The default sizes: the arena for the heap and the stack has
    [HEAP_SIZE] = 2048 bytes, two kilobytes; the global table has 397
    entries and a local table 11; every stack frame holds exactly
    [LOCAL_TABLE_SIZE] table entries inline. *)
Theorem default_sizes :
  HEAP_SIZE = 2048
  /\ HEAP_SIZE = 2 * 1024
  /\ GLOBAL_TABLE_SIZE = 397
  /\ LOCAL_TABLE_SIZE = 11
  /\ (forall f : StackFrame.t,
        List.length (array_to_list (StackFrame.LocalHashTable f))
        = Z.to_nat LOCAL_TABLE_SIZE)
  /\ (forall f : StackFrame.t,
        List.length (array_to_list (StackFrame.LocalHashTable f)) = 11%nat)
  /\ (forall (f : StackFrame.t) (i : nat),
        (exists e, array_get (StackFrame.LocalHashTable f) i = Some e)
        <-> (i < 11)%nat).
Proof.
  split; [reflexivity |]. split; [reflexivity |].
  split; [reflexivity |]. split; [reflexivity |].
  split; [| split].
  - intros f. apply array_to_list_length.
  - intros f. apply array_to_list_length.
  - intros f i. apply array_get_Some_iff.
Qed.

(** ** Alignment *)

Section Alignment.

Variables size_t_bits k wordsize : Z.
Hypothesis wordsize_pow2 : wordsize = 2 ^ k.
Hypothesis k_range : 0 <= k < size_t_bits.

Lemma wordsize_pos : 0 < wordsize.
Proof. subst wordsize. apply Z.pow_pos_nonneg; lia. Qed.

Lemma wordsize_lt_modulus : wordsize < 2 ^ size_t_bits.
Proof. subst wordsize. apply Z.pow_lt_mono_r; lia. Qed.

Lemma modulus_multiple : (wordsize | 2 ^ size_t_bits).
Proof.
  exists (2 ^ (size_t_bits - k)). subst wordsize.
  rewrite <- Z.pow_add_r by lia. f_equal. lia.
Qed.

(** The mask [~(wordsize - 1)] clears the [k] low bits. *)
Lemma land_mask (a : Z) :
  0 <= a < 2 ^ size_t_bits ->
  Z.land a (wrap size_t_bits (Z.lnot (wordsize - 1)))
  = wordsize * (a / wordsize).
Proof.
  intros Ha. unfold wrap.
  rewrite <- Z.land_ones by lia.
  rewrite Z.land_assoc, (Z.land_comm a), <- Z.land_assoc.
  rewrite (Z.land_ones a) by lia.
  rewrite (Z.mod_small a) by lia.
  rewrite Z.land_comm.
  rewrite <- Z.ldiff_land.
  replace (wordsize - 1) with (Z.ones k)
    by (rewrite Z.ones_equiv; subst wordsize; lia).
  rewrite Z.ldiff_ones_r by lia.
  rewrite Z.shiftl_mul_pow2, Z.shiftr_div_pow2 by lia.
  subst wordsize. lia.
Qed.

(** Without overflow the macro is the usual round-up by division. *)
Lemma MEM_ALIGN_div (n : Z) :
  0 <= n -> n + wordsize - 1 < 2 ^ size_t_bits ->
  MEM_ALIGN size_t_bits wordsize n
  = wordsize * ((n + wordsize - 1) / wordsize).
Proof.
  intros Hn Hov.
  pose proof wordsize_pos as Hp. pose proof wordsize_lt_modulus as Hlt.
  unfold MEM_ALIGN. cbv zeta.
  assert (Hm : 0 < 2 ^ size_t_bits) by lia.
  assert (E1 : wrap size_t_bits (wrap size_t_bits
                 (wrap size_t_bits n + wrap size_t_bits wordsize) - 1)
               = n + wordsize - 1).
  { unfold wrap. rewrite (Z.mod_small n), (Z.mod_small wordsize) by lia.
    rewrite Zminus_mod_idemp_l. apply Z.mod_small. lia. }
  assert (E2 : wrap size_t_bits (wrap size_t_bits wordsize - 1)
               = wordsize - 1).
  { unfold wrap. rewrite Zminus_mod_idemp_l. apply Z.mod_small. lia. }
  rewrite E1, E2. apply land_mask. lia.
Qed.

(** Aligning adds less than a word, and nothing to an aligned size. *)
Lemma MEM_ALIGN_within_word (n : Z) :
  0 <= n -> n + wordsize - 1 < 2 ^ size_t_bits ->
  n <= MEM_ALIGN size_t_bits wordsize n < n + wordsize
  /\ (n mod wordsize = 0 -> MEM_ALIGN size_t_bits wordsize n = n).
Proof.
  intros Hn Hov. pose proof wordsize_pos as Hp.
  rewrite (MEM_ALIGN_div n Hn Hov).
  pose proof (Z.mul_div_le (n + wordsize - 1) wordsize Hp) as Hle.
  pose proof (Z.mul_succ_div_gt (n + wordsize - 1) wordsize Hp) as Hgt.
  split; [lia |].
  intros Hmod.
  pose proof (Z.div_mod n wordsize ltac:(lia)) as Hdm.
  rewrite Hmod, Z.add_0_r in Hdm.
  replace (n + wordsize - 1) with (wordsize - 1 + (n / wordsize) * wordsize)
    by lia.
  rewrite Z.div_add by lia. rewrite Z.div_small by lia. lia.
Qed.

(** C3. For a size [n >= 0] with [n + wordsize - 1] representable in
    [size_t], and a word size that is a power of two, [MEM_ALIGN(n)] is
    the least multiple of the word size that is at least [n]: it is at
    least [n], it is a multiple of the word size, no smaller multiple is
    at least [n], and aligning it again changes nothing. *)
Theorem MEM_ALIGN_least_multiple (n : Z) :
  0 <= n -> n + wordsize - 1 < 2 ^ size_t_bits ->
  let m := MEM_ALIGN size_t_bits wordsize n in
  n <= m
  /\ (wordsize | m)
  /\ (forall m', (wordsize | m') -> n <= m' -> m <= m')
  /\ MEM_ALIGN size_t_bits wordsize m = m.
Proof.
  intros Hn Hov m.
  pose proof wordsize_pos as Hp.
  assert (Em : m = wordsize * ((n + wordsize - 1) / wordsize))
    by (apply MEM_ALIGN_div; assumption).
  pose proof (Z.mul_div_le (n + wordsize - 1) wordsize Hp) as Hle.
  pose proof (Z.mul_succ_div_gt (n + wordsize - 1) wordsize Hp) as Hgt.
  assert (Hdiv : (wordsize | m))
    by (exists ((n + wordsize - 1) / wordsize); lia).
  assert (Hnm : n <= m) by lia.
  repeat split; try assumption.
  - intros m' [q Hq] Hm'. subst m'.
    rewrite Em.
    assert ((n + wordsize - 1) / wordsize < q + 1); [| nia].
    apply Z.div_lt_upper_bound; [assumption |]. nia.
  - assert (Hm0 : 0 <= m) by lia.
    assert (Hm1 : m + wordsize - 1 < 2 ^ size_t_bits).
    { destruct (modulus_multiple) as [c Hc].
      destruct Hdiv as [q Hq].
      assert (q < c) by nia. nia. }
    rewrite (MEM_ALIGN_div m Hm0 Hm1).
    destruct Hdiv as [q Hq]. rewrite Hq.
    replace (q * wordsize + wordsize - 1) with (wordsize - 1 + q * wordsize) by lia.
    rewrite Z.div_add by lia.
    rewrite Z.div_small by lia. lia.
Qed.

(** *** The macro on every input *)

(** Rounding up by division gives a multiple, the least one above. *)
Lemma round_up_least (n m' : Z) :
  (wordsize | m') -> n <= m' ->
  wordsize * ((n + wordsize - 1) / wordsize) <= m'.
Proof.
  intros [q Hq] Hle. subst m'. pose proof wordsize_pos as Hp.
  assert ((n + wordsize - 1) / wordsize < q + 1); [| nia].
  apply Z.div_lt_upper_bound; [assumption |]. nia.
Qed.

Lemma round_up_bounds (n : Z) :
  n <= wordsize * ((n + wordsize - 1) / wordsize) < n + wordsize.
Proof.
  pose proof wordsize_pos as Hp.
  pose proof (Z.mul_div_le (n + wordsize - 1) wordsize Hp).
  pose proof (Z.mul_succ_div_gt (n + wordsize - 1) wordsize Hp).
  lia.
Qed.

(** The macro clears the low bits of [x + wordsize - 1], taken in
    [size_t]. *)
Lemma MEM_ALIGN_low_bits (x : Z) :
  MEM_ALIGN size_t_bits wordsize x
  = wordsize * (((x + wordsize - 1) mod 2 ^ size_t_bits) / wordsize).
Proof.
  pose proof wordsize_pos as Hp. pose proof wordsize_lt_modulus as Hlt.
  assert (Hm : 0 < 2 ^ size_t_bits) by lia.
  unfold MEM_ALIGN. cbv zeta.
  assert (E1 : wrap size_t_bits (wrap size_t_bits
                 (wrap size_t_bits x + wrap size_t_bits wordsize) - 1)
               = (x + wordsize - 1) mod 2 ^ size_t_bits).
  { unfold wrap.
    rewrite <- (Zminus_mod_idemp_l (x + wordsize) 1), (Zplus_mod x wordsize).
    reflexivity. }
  assert (E2 : wrap size_t_bits (wrap size_t_bits wordsize - 1)
               = wordsize - 1).
  { unfold wrap. rewrite Zminus_mod_idemp_l. apply Z.mod_small. lia. }
  rewrite E1, E2. apply land_mask. apply Z.mod_pos_bound. lia.
Qed.

Lemma MEM_ALIGN_round_up_wrapped (x : Z) :
  MEM_ALIGN size_t_bits wordsize x
  = wrap size_t_bits (wordsize * ((x + wordsize - 1) / wordsize)).
Proof.
  pose proof wordsize_pos as Hp. pose proof wordsize_lt_modulus as Hlt.
  destruct modulus_multiple as [c Hc].
  assert (Hm : 0 < 2 ^ size_t_bits) by lia.
  rewrite MEM_ALIGN_low_bits.
  set (b := x + wordsize - 1).
  set (a := b mod 2 ^ size_t_bits).
  assert (Ha : 0 <= a < 2 ^ size_t_bits) by (apply Z.mod_pos_bound; lia).
  pose proof (Z.mul_div_le a wordsize Hp) as Hle.
  assert (H0 : 0 <= a / wordsize) by (apply Z.div_pos; lia).
  unfold wrap.
  pose proof (Z.div_mod b (2 ^ size_t_bits) ltac:(lia)) as Hb.
  fold a in Hb.
  assert (Hbs : b / wordsize = c * (b / 2 ^ size_t_bits) + a / wordsize).
  { rewrite Hb at 1. rewrite Hc.
    replace (c * wordsize * (b / (c * wordsize)) + a)
      with (c * (b / (c * wordsize)) * wordsize + a) by ring.
    rewrite Z.div_add_l by lia. reflexivity. }
  rewrite Hbs.
  replace (wordsize * (c * (b / 2 ^ size_t_bits) + a / wordsize))
    with (wordsize * (a / wordsize)
          + (b / 2 ^ size_t_bits) * 2 ^ size_t_bits)
    by (rewrite Hc; ring).
  rewrite Z.mod_add by lia.
  symmetry. apply Z.mod_small. nia.
Qed.

(** Whatever the argument, negative or so large that the addition wraps,
    the macro yields the round-up of the argument to a multiple of the
    word size, reduced to [size_t]; the result is always word-aligned. *)
Lemma MEM_ALIGN_any_input (x : Z) :
  MEM_ALIGN size_t_bits wordsize x
  = wrap size_t_bits (wordsize * ((x + wordsize - 1) / wordsize))
  /\ (wordsize | MEM_ALIGN size_t_bits wordsize x)
  /\ 0 <= MEM_ALIGN size_t_bits wordsize x <= 2 ^ size_t_bits - wordsize.
Proof.
  pose proof wordsize_pos as Hp.
  destruct modulus_multiple as [c Hc].
  split; [apply MEM_ALIGN_round_up_wrapped |].
  rewrite MEM_ALIGN_low_bits.
  set (a := (x + wordsize - 1) mod 2 ^ size_t_bits).
  assert (Ha : 0 <= a < 2 ^ size_t_bits) by (apply Z.mod_pos_bound; lia).
  pose proof (Z.mul_div_le a wordsize Hp) as Hle.
  assert (Hq : a / wordsize < c)
    by (apply Z.div_lt_upper_bound; [assumption | lia]).
  assert (H0 : 0 <= a / wordsize) by (apply Z.div_pos; lia).
  split; [exists (a / wordsize); ring | nia].
Qed.

(** A larger size never aligns to less. *)
Lemma MEM_ALIGN_monotone (n n' : Z) :
  0 <= n <= n' -> n' + wordsize - 1 < 2 ^ size_t_bits ->
  MEM_ALIGN size_t_bits wordsize n <= MEM_ALIGN size_t_bits wordsize n'.
Proof.
  intros Hn Hov. pose proof wordsize_pos as Hp.
  rewrite (MEM_ALIGN_div n), (MEM_ALIGN_div n') by lia.
  apply Z.mul_le_mono_nonneg_l; [lia |].
  apply Z.div_le_mono; lia.
Qed.

(** From an aligned base, aligning the end of a block is aligning its
    size: blocks laid out one after the other stay aligned. *)
Lemma MEM_ALIGN_aligned_base (base n : Z) :
  (wordsize | base) -> 0 <= base -> 0 <= n ->
  base + n + wordsize - 1 < 2 ^ size_t_bits ->
  MEM_ALIGN size_t_bits wordsize (base + n)
  = base + MEM_ALIGN size_t_bits wordsize n.
Proof.
  intros [q Hq] Hb Hn Hov. pose proof wordsize_pos as Hp.
  rewrite (MEM_ALIGN_div (base + n)), (MEM_ALIGN_div n) by lia.
  subst base.
  replace (q * wordsize + n + wordsize - 1)
    with (n + wordsize - 1 + q * wordsize) by ring.
  rewrite Z.div_add by lia. ring.
Qed.

(** One block for two sizes never takes more than two aligned blocks,
    and saves less than a word. *)
Lemma MEM_ALIGN_subadditive (a b : Z) :
  0 <= a -> 0 <= b -> a + b + wordsize - 1 < 2 ^ size_t_bits ->
  MEM_ALIGN size_t_bits wordsize (a + b)
  <= MEM_ALIGN size_t_bits wordsize a + MEM_ALIGN size_t_bits wordsize b
  < MEM_ALIGN size_t_bits wordsize (a + b) + 2 * wordsize.
Proof.
  intros Ha Hb Hov. pose proof wordsize_pos as Hp.
  rewrite (MEM_ALIGN_div (a + b)), (MEM_ALIGN_div a), (MEM_ALIGN_div b)
    by lia.
  pose proof (round_up_bounds a) as Ba.
  pose proof (round_up_bounds b) as Bb.
  pose proof (round_up_bounds (a + b)) as Bab.
  split; [| lia].
  apply round_up_least; [| lia].
  exists ((a + wordsize - 1) / wordsize + (b + wordsize - 1) / wordsize).
  ring.
Qed.

(** Where the addition wraps, and for the negative sizes above minus
    one word, the macro yields 0. *)
Lemma MEM_ALIGN_wraps_to_zero (x : Z) :
  - wordsize < x <= 0 \/ 2 ^ size_t_bits - wordsize < x <= 2 ^ size_t_bits ->
  MEM_ALIGN size_t_bits wordsize x = 0.
Proof.
  intros Hx. pose proof wordsize_pos as Hp.
  pose proof wordsize_lt_modulus as Hlt.
  destruct modulus_multiple as [c Hc].
  rewrite MEM_ALIGN_round_up_wrapped. unfold wrap. destruct Hx as [Hx | Hx].
  - rewrite Z.div_small by lia. rewrite Z.mul_0_r. reflexivity.
  - assert (Hd : (x + wordsize - 1) / wordsize = c).
    { replace (x + wordsize - 1)
        with (x + wordsize - 1 - 2 ^ size_t_bits + c * wordsize) by lia.
      rewrite Z.div_add by lia. rewrite Z.div_small by lia. lia. }
    rewrite Hd. replace (wordsize * c) with (2 ^ size_t_bits) by lia.
    apply Z.mod_same. lia.
Qed.

End Alignment.

Example MEM_ALIGN_13 : MEM_ALIGN 64 ARCH_ALIGN_WORDSIZE 13 = 16.
Proof. reflexivity. Qed.

Example MEM_ALIGN_16 : MEM_ALIGN 32 ARCH_ALIGN_WORDSIZE 16 = 16.
Proof. reflexivity. Qed.

(** With a word size that is no power of two the mask does not round:
    for a word of three bytes, [MEM_ALIGN(1)] would be 1. *)
Example MEM_ALIGN_wordsize_3 :
  MEM_ALIGN 32 3 1 = 1 /\ ~ (3 | MEM_ALIGN 32 3 1).
Proof.
  split; [reflexivity |].
  change (MEM_ALIGN 32 3 1) with 1. intros [q Hq]. lia.
Qed.

Lemma MEM_ALIGN_within_word_witness :
  (ARCH_ALIGN_WORDSIZE = 2 ^ 2 /\ 0 <= 2 < 32
   /\ 0 <= 2045 /\ 2045 + ARCH_ALIGN_WORDSIZE - 1 < 2 ^ 32)
  /\ (2045 <= MEM_ALIGN 32 ARCH_ALIGN_WORDSIZE 2045
         < 2045 + ARCH_ALIGN_WORDSIZE
      /\ (2045 mod ARCH_ALIGN_WORDSIZE = 0 ->
          MEM_ALIGN 32 ARCH_ALIGN_WORDSIZE 2045 = 2045)).
Proof.
  assert (H1 : ARCH_ALIGN_WORDSIZE = 2 ^ 2) by reflexivity.
  assert (H2 : 0 <= 2 < 32) by lia.
  assert (H3 : 0 <= 2045) by lia.
  assert (H4 : 2045 + ARCH_ALIGN_WORDSIZE - 1 < 2 ^ 32) by reflexivity.
  split.
  - repeat split; assumption.
  - exact (MEM_ALIGN_within_word 32 2 ARCH_ALIGN_WORDSIZE H1 H2 2045 H3 H4).
Defined.

Lemma MEM_ALIGN_least_multiple_witness :
  (ARCH_ALIGN_WORDSIZE = 2 ^ 2 /\ 0 <= 2 < 64
   /\ 0 <= 13 /\ 13 + ARCH_ALIGN_WORDSIZE - 1 < 2 ^ 64)
  /\ (13 <= MEM_ALIGN 64 ARCH_ALIGN_WORDSIZE 13
      /\ (ARCH_ALIGN_WORDSIZE | MEM_ALIGN 64 ARCH_ALIGN_WORDSIZE 13)
      /\ (forall m', (ARCH_ALIGN_WORDSIZE | m') -> 13 <= m' ->
                     MEM_ALIGN 64 ARCH_ALIGN_WORDSIZE 13 <= m')
      /\ MEM_ALIGN 64 ARCH_ALIGN_WORDSIZE
           (MEM_ALIGN 64 ARCH_ALIGN_WORDSIZE 13)
         = MEM_ALIGN 64 ARCH_ALIGN_WORDSIZE 13).
Proof.
  assert (H1 : ARCH_ALIGN_WORDSIZE = 2 ^ 2) by reflexivity.
  assert (H2 : 0 <= 2 < 64) by lia.
  assert (H3 : 0 <= 13) by lia.
  assert (H4 : 13 + ARCH_ALIGN_WORDSIZE - 1 < 2 ^ 64) by (vm_compute; reflexivity).
  split.
  - repeat split; assumption.
  - exact (MEM_ALIGN_least_multiple 64 2 ARCH_ALIGN_WORDSIZE H1 H2 13 H3 H4).
Defined.

(** The result does not depend on the width of [size_t], as long as
    the addition does not wrap in either width: hosts with 32-bit and
    64-bit [size_t] align alike. *)
Lemma MEM_ALIGN_width_independent (w1 w2 k wordsize n : Z) :
  wordsize = 2 ^ k -> 0 <= k < w1 -> k < w2 -> 0 <= n ->
  n + wordsize - 1 < 2 ^ w1 -> n + wordsize - 1 < 2 ^ w2 ->
  MEM_ALIGN w1 wordsize n = MEM_ALIGN w2 wordsize n.
Proof.
  intros Hs Hk1 Hk2 Hn H1 H2.
  rewrite (MEM_ALIGN_div w1 k wordsize Hs Hk1 n Hn H1).
  rewrite (MEM_ALIGN_div w2 k wordsize Hs (conj (proj1 Hk1) Hk2) n Hn H2).
  reflexivity.
Qed.

(** On the host's [int] sizes: with a [size_t] at least as wide as
    [int], the addition never wraps for a non-negative [int], but for
    the three largest sizes the aligned size is [INT_MAX + 1], which no
    [int] holds. *)
Lemma MEM_ALIGN_int_argument (size_t_bits x : Z) :
  int_bits <= size_t_bits -> 0 <= x <= INT_MAX ->
  MEM_ALIGN size_t_bits ARCH_ALIGN_WORDSIZE x
  = ARCH_ALIGN_WORDSIZE * ((x + ARCH_ALIGN_WORDSIZE - 1) / ARCH_ALIGN_WORDSIZE)
  /\ (MEM_ALIGN size_t_bits ARCH_ALIGN_WORDSIZE x <= INT_MAX
      <-> x <= INT_MAX - 3)
  /\ (INT_MAX - 3 < x ->
      MEM_ALIGN size_t_bits ARCH_ALIGN_WORDSIZE x = INT_MAX + 1).
Proof.
  intros HW Hx.
  change int_bits with 32 in HW.
  change INT_MAX with 2147483647 in *.
  assert (Hpow : 2 ^ 32 <= 2 ^ size_t_bits)
    by (apply Z.pow_le_mono_r; lia).
  change (2 ^ 32) with 4294967296 in Hpow.
  assert (E : MEM_ALIGN size_t_bits ARCH_ALIGN_WORDSIZE x
              = ARCH_ALIGN_WORDSIZE
                * ((x + ARCH_ALIGN_WORDSIZE - 1) / ARCH_ALIGN_WORDSIZE)).
  { apply (MEM_ALIGN_div size_t_bits 2 ARCH_ALIGN_WORDSIZE);
      [reflexivity | lia | lia |].
    change ARCH_ALIGN_WORDSIZE with 4. lia. }
  rewrite E. change ARCH_ALIGN_WORDSIZE with 4.
  pose proof (Z.div_mod (x + 4 - 1) 4 ltac:(lia)) as Hd.
  pose proof (Z.mod_pos_bound (x + 4 - 1) 4 ltac:(lia)) as Hm.
  split; [reflexivity |]. split; [split; lia | lia].
Qed.

Lemma MEM_ALIGN_any_input_witness :
  (ARCH_ALIGN_WORDSIZE = 2 ^ 2 /\ 0 <= 2 < 32)
  /\ (MEM_ALIGN 32 ARCH_ALIGN_WORDSIZE (-5)
      = wrap 32 (ARCH_ALIGN_WORDSIZE
                 * ((-5 + ARCH_ALIGN_WORDSIZE - 1) / ARCH_ALIGN_WORDSIZE))
      /\ (ARCH_ALIGN_WORDSIZE | MEM_ALIGN 32 ARCH_ALIGN_WORDSIZE (-5))
      /\ 0 <= MEM_ALIGN 32 ARCH_ALIGN_WORDSIZE (-5)
           <= 2 ^ 32 - ARCH_ALIGN_WORDSIZE).
Proof.
  assert (H1 : ARCH_ALIGN_WORDSIZE = 2 ^ 2) by reflexivity.
  assert (H2 : 0 <= 2 < 32) by lia.
  split; [tauto |].
  exact (MEM_ALIGN_any_input 32 2 ARCH_ALIGN_WORDSIZE H1 H2 (-5)).
Defined.

Lemma MEM_ALIGN_monotone_witness :
  (ARCH_ALIGN_WORDSIZE = 2 ^ 2 /\ 0 <= 2 < 32 /\ 0 <= 5 <= 9
   /\ 9 + ARCH_ALIGN_WORDSIZE - 1 < 2 ^ 32)
  /\ MEM_ALIGN 32 ARCH_ALIGN_WORDSIZE 5 <= MEM_ALIGN 32 ARCH_ALIGN_WORDSIZE 9.
Proof.
  assert (H1 : ARCH_ALIGN_WORDSIZE = 2 ^ 2) by reflexivity.
  assert (H2 : 0 <= 2 < 32) by lia.
  assert (H3 : 0 <= 5 <= 9) by lia.
  assert (H4 : 9 + ARCH_ALIGN_WORDSIZE - 1 < 2 ^ 32) by reflexivity.
  split; [tauto |].
  exact (MEM_ALIGN_monotone 32 2 ARCH_ALIGN_WORDSIZE H1 H2 5 9 H3 H4).
Defined.

Lemma MEM_ALIGN_aligned_base_witness :
  (ARCH_ALIGN_WORDSIZE = 2 ^ 2 /\ 0 <= 2 < 32
   /\ (ARCH_ALIGN_WORDSIZE | 1024) /\ 0 <= 1024 /\ 0 <= 13
   /\ 1024 + 13 + ARCH_ALIGN_WORDSIZE - 1 < 2 ^ 32)
  /\ MEM_ALIGN 32 ARCH_ALIGN_WORDSIZE (1024 + 13)
     = 1024 + MEM_ALIGN 32 ARCH_ALIGN_WORDSIZE 13.
Proof.
  assert (H1 : ARCH_ALIGN_WORDSIZE = 2 ^ 2) by reflexivity.
  assert (H2 : 0 <= 2 < 32) by lia.
  assert (H3 : (ARCH_ALIGN_WORDSIZE | 1024)) by (exists 256; reflexivity).
  assert (H4 : 0 <= 1024) by lia.
  assert (H5 : 0 <= 13) by lia.
  assert (H6 : 1024 + 13 + ARCH_ALIGN_WORDSIZE - 1 < 2 ^ 32) by reflexivity.
  split; [tauto |].
  exact (MEM_ALIGN_aligned_base 32 2 ARCH_ALIGN_WORDSIZE H1 H2 1024 13
           H3 H4 H5 H6).
Defined.

Lemma MEM_ALIGN_subadditive_witness :
  (ARCH_ALIGN_WORDSIZE = 2 ^ 2 /\ 0 <= 2 < 32 /\ 0 <= 5 /\ 0 <= 6
   /\ 5 + 6 + ARCH_ALIGN_WORDSIZE - 1 < 2 ^ 32)
  /\ MEM_ALIGN 32 ARCH_ALIGN_WORDSIZE (5 + 6)
     <= MEM_ALIGN 32 ARCH_ALIGN_WORDSIZE 5
        + MEM_ALIGN 32 ARCH_ALIGN_WORDSIZE 6
     < MEM_ALIGN 32 ARCH_ALIGN_WORDSIZE (5 + 6) + 2 * ARCH_ALIGN_WORDSIZE.
Proof.
  assert (H1 : ARCH_ALIGN_WORDSIZE = 2 ^ 2) by reflexivity.
  assert (H2 : 0 <= 2 < 32) by lia.
  assert (H3 : 0 <= 5) by lia.
  assert (H4 : 0 <= 6) by lia.
  assert (H5 : 5 + 6 + ARCH_ALIGN_WORDSIZE - 1 < 2 ^ 32) by reflexivity.
  split; [tauto |].
  exact (MEM_ALIGN_subadditive 32 2 ARCH_ALIGN_WORDSIZE H1 H2 5 6 H3 H4 H5).
Defined.

Lemma MEM_ALIGN_wraps_to_zero_witness :
  (ARCH_ALIGN_WORDSIZE = 2 ^ 2 /\ 0 <= 2 < 32
   /\ (- ARCH_ALIGN_WORDSIZE < 4294967295 <= 0
       \/ 2 ^ 32 - ARCH_ALIGN_WORDSIZE < 4294967295 <= 2 ^ 32))
  /\ MEM_ALIGN 32 ARCH_ALIGN_WORDSIZE 4294967295 = 0.
Proof.
  assert (H1 : ARCH_ALIGN_WORDSIZE = 2 ^ 2) by reflexivity.
  assert (H2 : 0 <= 2 < 32) by lia.
  assert (H3 : - ARCH_ALIGN_WORDSIZE < 4294967295 <= 0
               \/ 2 ^ 32 - ARCH_ALIGN_WORDSIZE < 4294967295 <= 2 ^ 32)
    by (right; split; [reflexivity | discriminate]).
  split; [tauto |].
  exact (MEM_ALIGN_wraps_to_zero 32 2 ARCH_ALIGN_WORDSIZE H1 H2
           4294967295 H3).
Defined.

Lemma MEM_ALIGN_width_independent_witness :
  (ARCH_ALIGN_WORDSIZE = 2 ^ 2 /\ 0 <= 2 < 32 /\ 2 < 64 /\ 0 <= 2045
   /\ 2045 + ARCH_ALIGN_WORDSIZE - 1 < 2 ^ 32
   /\ 2045 + ARCH_ALIGN_WORDSIZE - 1 < 2 ^ 64)
  /\ MEM_ALIGN 32 ARCH_ALIGN_WORDSIZE 2045
     = MEM_ALIGN 64 ARCH_ALIGN_WORDSIZE 2045.
Proof.
  assert (H1 : ARCH_ALIGN_WORDSIZE = 2 ^ 2) by reflexivity.
  assert (H2 : 0 <= 2 < 32) by lia.
  assert (H3 : 2 < 64) by lia.
  assert (H4 : 0 <= 2045) by lia.
  assert (H5 : 2045 + ARCH_ALIGN_WORDSIZE - 1 < 2 ^ 32) by reflexivity.
  assert (H6 : 2045 + ARCH_ALIGN_WORDSIZE - 1 < 2 ^ 64) by reflexivity.
  split; [tauto |].
  exact (MEM_ALIGN_width_independent 32 64 2 ARCH_ALIGN_WORDSIZE 2045
           H1 H2 H3 H4 H5 H6).
Defined.

Lemma MEM_ALIGN_int_argument_witness :
  (int_bits <= 64 /\ 0 <= 2147483646 <= INT_MAX)
  /\ (MEM_ALIGN 64 ARCH_ALIGN_WORDSIZE 2147483646
      = ARCH_ALIGN_WORDSIZE
        * ((2147483646 + ARCH_ALIGN_WORDSIZE - 1) / ARCH_ALIGN_WORDSIZE)
      /\ (MEM_ALIGN 64 ARCH_ALIGN_WORDSIZE 2147483646 <= INT_MAX
          <-> 2147483646 <= INT_MAX - 3)
      /\ (INT_MAX - 3 < 2147483646 ->
          MEM_ALIGN 64 ARCH_ALIGN_WORDSIZE 2147483646 = INT_MAX + 1)).
Proof.
  assert (H1 : int_bits <= 64) by discriminate.
  assert (H2 : 0 <= 2147483646 <= INT_MAX)
    by (split; discriminate).
  split; [tauto |].
  exact (MEM_ALIGN_int_argument 64 2147483646 H1 H2).
Defined.

(** ** The largest power of ten *)

Lemma pow10_le_pow10 (k : Z) :
  0 <= k -> 10 ^ k < 10 ^ 10 -> 10 ^ k <= 10 ^ 9.
Proof.
  intros Hk Hlt.
  assert (k < 10) by (apply (Z.pow_lt_mono_r_iff 10); lia).
  apply Z.pow_le_mono_r; lia.
Qed.

(** C4. [LARGE_INT_POWER_OF_TEN] is ten to the ninth, which fits the
    host's 32-bit [int] while ten to the tenth does not; so it is the
    largest power of ten that fits. *)
Theorem LARGE_INT_POWER_OF_TEN_largest :
  LARGE_INT_POWER_OF_TEN = 10 ^ 9
  /\ LARGE_INT_POWER_OF_TEN = 1000000000
  /\ 10 ^ 9 <= INT_MAX
  /\ 10 ^ 10 > INT_MAX
  /\ (forall k, 0 <= k -> 10 ^ k <= INT_MAX ->
                10 ^ k <= LARGE_INT_POWER_OF_TEN).
Proof.
  assert (Hmax : INT_MAX = 2147483647) by reflexivity.
  repeat split; try reflexivity.
  - rewrite Hmax. lia.
  - intros k Hk Hfit.
    change LARGE_INT_POWER_OF_TEN with (10 ^ 9).
    apply pow10_le_pow10; [assumption |].
    rewrite Hmax in Hfit. lia.
Qed.

(** The comment of [LARGE_INT_POWER_OF_TEN] holds for exactly the [int]
    widths from 31 to 34 bits, the host's 32 among them. *)
Lemma LARGE_INT_POWER_OF_TEN_widths (w : Z) :
  1 <= w ->
  (LARGE_INT_POWER_OF_TEN <= 2 ^ (w - 1) - 1 < 10 * LARGE_INT_POWER_OF_TEN)
  <-> 31 <= w <= 34.
Proof.
  intros Hw. unfold LARGE_INT_POWER_OF_TEN. split.
  - intros [Hlo Hhi]. split.
    + destruct (Z_lt_le_dec w 31) as [Hs |]; [| assumption].
      assert (2 ^ (w - 1) <= 2 ^ 29) by (apply Z.pow_le_mono_r; lia).
      change (2 ^ 29) with 536870912 in *. lia.
    + destruct (Z_lt_le_dec 34 w) as [Hs |]; [| lia].
      assert (2 ^ 34 <= 2 ^ (w - 1)) by (apply Z.pow_le_mono_r; lia).
      change (2 ^ 34) with 17179869184 in *. lia.
  - intros [Hlo Hhi].
    assert (2 ^ 30 <= 2 ^ (w - 1)) by (apply Z.pow_le_mono_r; lia).
    assert (2 ^ (w - 1) <= 2 ^ 33) by (apply Z.pow_le_mono_r; lia).
    change (2 ^ 30) with 1073741824 in *.
    change (2 ^ 33) with 8589934592 in *. lia.
Qed.

(** ** Capacity limits *)

(** C9. The fixed capacities: 200 user-defined functions and macros, a
    call stack of 10 frames and 10 parameters per call.  The shared
    parameter array has exactly [PARAMETER_MAX] slots, so no list of more
    than 10 arguments is held by it. *)
Theorem capacity_limits :
  FUNCTION_STORE_MAX = 200
  /\ STACK_MAX = 10
  /\ PARAMETER_MAX = 10
  /\ (forall g : Globals.t,
        List.length (array_to_list (Globals.Parameter_ g))
        = Z.to_nat PARAMETER_MAX)
  /\ (forall (g : Globals.t) (i : nat),
        (exists v, array_get (Globals.Parameter_ g) i = Some v)
        <-> (i < 10)%nat)
  /\ (forall (g : Globals.t) (i : nat) (v : Value.t),
        (10 <= i)%nat -> array_set (Globals.Parameter_ g) i v = None)
  /\ (forall (g : Globals.t) (args : list Value.t) (k : nat),
        (10 < List.length args)%nat ->
        firstn k (array_to_list (Globals.Parameter_ g)) <> args).
Proof.
  split; [reflexivity |]. split; [reflexivity |]. split; [reflexivity |].
  split; [| split; [| split]].
  - intros g. apply array_to_list_length.
  - intros g i. apply array_get_Some_iff.
  - intros g i v Hi. apply array_set_None. exact Hi.
  - intros g args k Hlen Heq.
    pose proof (length_firstn k (array_to_list (Globals.Parameter_ g)))
      as Hle.
    rewrite Heq, array_to_list_length in Hle.
    change (Z.to_nat PARAMETER_MAX) with 10%nat in Hle. lia.
Qed.

(** ** Unsigned offsets and sizes *)

Lemma uint_val_range (u : uint) : 0 <= uint_val u <= UINT_MAX.
Proof.
  destruct u as [z Hz]. simpl. unfold uint_in_range in Hz.
  apply andb_prop in Hz. destruct Hz as [H0 H1].
  apply Z.leb_le in H0. apply Z.leb_le in H1. lia.
Qed.

Lemma uint_val_of_Z (z : Z) : uint_val (uint_of_Z z) = z mod 2 ^ 32.
Proof. reflexivity. Qed.

Lemma uint_val_add (a : uint) (n : Z) :
  uint_val (uint_add a (uint_of_Z n)) = (uint_val a + n) mod 2 ^ 32.
Proof.
  unfold uint_add. rewrite !uint_val_of_Z. apply Zplus_mod_idemp_r.
Qed.

Lemma uint_val_sub (a : uint) (n : Z) :
  uint_val (uint_sub a (uint_of_Z n)) = (uint_val a - n) mod 2 ^ 32.
Proof.
  unfold uint_sub. rewrite !uint_val_of_Z. apply Zminus_mod_idemp_r.
Qed.

(** C10. The offset of a pointer value and the size of an array value
    are unsigned machine integers: they are never negative, arithmetic
    on an offset is modulo 2^32, and decrementing an offset of 0 gives
    the largest offset, [UINT_MAX], not a negative one. *)
Theorem Offset_Size_unsigned :
  UINT_MAX = 2 ^ 32 - 1
  /\ (forall p : PointerValue.t,
        0 <= uint_val (PointerValue.Offset (PointerValue.Data p))
          <= UINT_MAX)
  /\ (forall a : ArrayValue.t, 0 <= uint_val (ArrayValue.Size a) <= UINT_MAX)
  /\ (forall (p : PointerValue.t) (n : Z),
        let o := PointerValue.Offset (PointerValue.Data p) in
        uint_val (uint_add o (uint_of_Z n)) = (uint_val o + n) mod 2 ^ 32
        /\ uint_val (uint_sub o (uint_of_Z n)) = (uint_val o - n) mod 2 ^ 32
        /\ 0 <= uint_val (uint_sub o (uint_of_Z n)) <= UINT_MAX)
  /\ (forall p : PointerValue.t,
        uint_val (PointerValue.Offset (PointerValue.Data p)) = 0 ->
        uint_val (uint_sub (PointerValue.Offset (PointerValue.Data p))
                    (uint_of_Z 1))
        = UINT_MAX)
  /\ UINT_MAX = 4294967295.
Proof.
  split; [reflexivity |].
  split; [intros p; apply uint_val_range |].
  split; [intros a; apply uint_val_range |].
  split; [| split; [| reflexivity]].
  - intros p n o. split; [apply uint_val_add |].
    split; [apply uint_val_sub | apply uint_val_range].
  - intros p H0. rewrite uint_val_sub, H0. reflexivity.
Qed.

Example Offset_decrement_zero :
  uint_val (uint_sub (uint_of_Z 0) (uint_of_Z 1)) = 4294967295
  /\ uint_val (uint_sub (uint_of_Z 0) (uint_of_Z 4)) = 4294967292
  /\ uint_val (uint_add (uint_of_Z 4294967295) (uint_of_Z 1)) = 0.
Proof. repeat split. Qed.

(** ** Pointer values *)

Lemma is_null_iff (p : ptr) : is_null p = true <-> p = NULL.
Proof. unfold is_null. apply Z.eqb_eq. Qed.

(** C6. A pointer value is a segment together with a payload read as an
    unsigned offset or as a raw machine-memory pointer.  With a null
    segment it denotes the raw memory pointer of its payload; with any
    other segment it denotes the index [Offset] into that segment.  Both
    kinds of pointer are held by some pointer value. *)
Theorem PointerValue_segment_or_raw :
  (forall p : PointerValue.t,
     p = PointerValue.Build (PointerValue.Segment p)
           (PointerValue.Build_s
              (PointerValue.Offset (PointerValue.Data p))
              (PointerValue.Memory (PointerValue.Data p))))
  /\ (forall p : PointerValue.t,
        PointerValue.Segment p = NULL ->
        PointerValue_meaning p
        = RawMemory (PointerValue.Memory (PointerValue.Data p)))
  /\ (forall p : PointerValue.t,
        PointerValue.Segment p <> NULL ->
        PointerValue_meaning p
        = IndexInto (PointerValue.Segment p)
            (uint_val (PointerValue.Offset (PointerValue.Data p)))
        /\ 0 <= uint_val (PointerValue.Offset (PointerValue.Data p))
             <= UINT_MAX)
  /\ (forall p : PointerValue.t,
        (exists m, PointerValue_meaning p = RawMemory m)
        <-> PointerValue.Segment p = NULL)
  /\ (forall (segment : ptr) (offset : uint) (other : ptr),
        segment <> NULL ->
        PointerValue_meaning (PointerValue_index segment offset other)
        = IndexInto segment (uint_val offset))
  /\ (forall (m : ptr) (other : uint),
        PointerValue_meaning (PointerValue_raw m other) = RawMemory m).
Proof.
  split; [intros [seg [o m]]; reflexivity |].
  split.
  { intros p H. unfold PointerValue_meaning.
    apply is_null_iff in H. rewrite H. reflexivity. }
  split.
  { intros p H. unfold PointerValue_meaning.
    destruct (is_null (PointerValue.Segment p)) eqn:E.
    - apply is_null_iff in E. contradiction.
    - split; [reflexivity | apply uint_val_range]. }
  split.
  { intros p. unfold PointerValue_meaning.
    destruct (is_null (PointerValue.Segment p)) eqn:E.
    - apply is_null_iff in E. split; [intros _; exact E | intros _; eauto].
    - split; [intros [m Hm]; discriminate Hm |].
      intros H. apply is_null_iff in H. congruence. }
  split.
  { intros seg o other H. unfold PointerValue_meaning, PointerValue_index.
    simpl. destruct (is_null seg) eqn:E; [| reflexivity].
    apply is_null_iff in E. contradiction. }
  intros m other. reflexivity.
Qed.

Example PointerValue_meaning_examples :
  PointerValue_meaning (PointerValue_index 4096 (uint_of_Z 3) 0)
  = IndexInto 4096 3
  /\ PointerValue_meaning (PointerValue_raw 65536 (uint_of_Z 0))
     = RawMemory 65536.
Proof. split; reflexivity. Qed.
